(** * Shallow embedding of CLEPP's KGE splitter, label mapping and classifier wrapper

    Sources: [src/clep/embedding/kge.py] and [src/vp4p/classification/classify.py].
    Python exceptions are modelled by the [result] error monad below; pandas
    frames by lists of rows carrying their index label; Python dicts by
    stdpp's [gmap]; numpy's global random state by an explicit state threaded
    through every sampling call. *)

From Stdlib Require Import QArith Qround Lqa Ascii.
From stdpp Require Import base list gmap strings sorting pretty.

Open Scope string_scope.
Open Scope list_scope.

(** ** Exceptions and the error monad *)

Inductive exn :=
| KeyError (key : string)
| ValueError (msg : string)
| ModuleNotFoundError (msg : string)
| ZeroDivisionError.

Inductive result (A : Type) :=
| Ok (a : A)
| Err (e : exn).
Arguments Ok {A} a.
Arguments Err {A} e.

Definition rbind {A B} (m : result A) (f : A -> result B) : result B :=
  match m with
  | Ok a => f a
  | Err e => Err e
  end.

Notation "'let!' p := m 'in' k" := (rbind m (fun p => k))
  (at level 200, p pattern at level 0, m at level 100, k at level 200).

Global Instance result_ret : MRet result := fun A a => Ok a.
Global Instance result_bind : MBind result := fun A B f m => rbind m f.

(** stdpp's [mapM] evaluates left to right and stops at the first
    exception, as the evaluation of Python arguments or of a loop body does. *)

(** Python's [d[k]] on a dict. *)
Definition dict_get {V} (d : gmap string V) (k : string) : result V :=
  match d !! k with
  | Some v => Ok v
  | None => Err (KeyError k)
  end.

(** ** classify.py: [get_classifier] *)

Module Classify.









End Classify.

(** ** kge.py: [run_optimization] *)

Module Optim.

(** The keyword arguments of the [hpo_pipeline] call, in source order,
    each paired with the [model_config] key it is read from. *)
Definition hpo_arguments : list (string * string) :=
  [("model", "model"); ("model_kwargs", "model_kwargs");
   ("model_kwargs_ranges", "model_kwargs_ranges");
   ("loss", "loss_function"); ("loss_kwargs", "loss_kwargs");
   ("loss_kwargs_ranges", "loss_kwargs_ranges");
   ("regularizer", "regularizer"); ("optimizer", "optimizer");
   ("optimizer_kwargs", "optimizer_kwargs");
   ("optimizer_kwargs_ranges", "optimizer_kwargs_ranges");
   ("training_loop", "training_loop");
   ("training_loop_kwargs", "training_loop_kwargs");
   ("training_kwargs", "training_kwargs");
   ("training_kwargs_ranges", "training_kwargs_ranges");
   ("negative_sampler", "negative_sampler");
   ("negative_sampler_kwargs", "negative_sampler_kwargs");
   ("negative_sampler_kwargs_ranges", "negative_sampler_kwargs_ranges");
   ("stopper", "stopper"); ("stopper_kwargs", "stopper_kwargs");
   ("evaluator", "evaluator"); ("evaluator_kwargs", "evaluator_kwargs");
   ("evaluation_kwargs", "evaluation_kwargs"); ("n_trials", "n_trials");
   ("timeout", "timeout"); ("metric", "metric"); ("direction", "direction");
   ("sampler", "sampler"); ("pruner", "pruner")].

Definition config_keys : list string := snd <$> hpo_arguments.

(** The configuration values are opaque to this code. *)
Section RunOptimization.
Context {V : Type}.

(** The argument list handed to [hpo_pipeline]; [Err] when a subscript
    [model_config[...]] fails before the call is made.  The call itself and
    the saving of its results are external and not modelled. *)
Definition run_optimization (model_config : gmap string V)
  : result (list (string * V)) :=
  mapM (fun '(kw, key) => let! v := dict_get model_config key in Ok (kw, v))
    hpo_arguments.

End RunOptimization.

End Optim.

(** ** kge.py: [_weighted_splitter] *)

Module Splitter.

(** One row of the edgelist, (source, relation, target). *)
Record triple := mk_triple { source : string; relation : string; target : string }.

Global Instance triple_eq_dec : EqDecision triple.
Proof. solve_decision. Defined.

(** A frame row: its index label and its values. *)
Definition row : Type := nat * triple.

(** Keep the first row of every key, as pandas' [drop_duplicates] (on all
    columns, or on a subset) and [Series.unique] do. *)
Fixpoint dedup_by {A K} `{EqDecision K} (key : A -> K) (seen : list K) (l : list A)
  : list A :=
  match l with
  | [] => []
  | x :: l' =>
      if decide (key x ∈ seen) then dedup_by key seen l'
      else x :: dedup_by key (key x :: seen) l'
  end.

Definition drop_duplicates (df : list row) : list row := dedup_by snd [] df.

(** [sorted(edgelist['relation'].unique())]: Python compares strings
    lexicographically; [String.le] is that order on ASCII strings, and any
    stable sort (Timsort there, merge sort here) gives the same list. *)
Definition unique_relations (df : list row) : list string :=
  merge_sort String.le (dedup_by id [] ((fun x => relation (snd x)) <$> df)).

(** Python's built-in [round] on a number: to the nearest integer, ties to
    even.  The fractions are modelled as exact rationals. *)
Definition py_round (x : Q) : Z :=
  let f := Qfloor x in
  match Qcompare (x - inject_Z f) (1#2) with
  | Lt => f
  | Gt => f + 1
  | Eq => if Z.even f then f else f + 1
  end%Z.

Section Sampling.

(** numpy's global [RandomState]: its state and [random_interval s i],
    which draws an integer in [0, i] and returns the next state. *)
Variable rng : Type.
Variable random_interval : rng -> nat -> nat * rng.

(** [x[i], x[j] = x[j], x[i]] on a list. *)
Definition swap {A} (i j : nat) (l : list A) : list A :=
  match l !! i, l !! j with
  | Some a, Some b => <[j:=a]> (<[i:=b]> l)
  | _, _ => l
  end.

(** numpy's legacy [shuffle]: [for i in reversed(range(1, n))], draw
    [j = random_interval(i)] and swap positions [i] and [j].  [shuffle_go s i l]
    runs the iterations [i, i-1, ..., 1]. *)
Fixpoint shuffle_go {A} (s : rng) (i : nat) (l : list A) : list A * rng :=
  match i with
  | 0 => (l, s)
  | S i' =>
      let '(j, s') := random_interval s i in
      shuffle_go s' i' (swap i j l)
  end.

(** [RandomState.permutation(n)]: shuffle [arange(n)]. *)
Definition permutation (s : rng) (n : nat) : list nat * rng :=
  shuffle_go s (n - 1) (seq 0 n).

(** [RandomState.choice(pop_size, size, replace=False)]. *)
Definition choice (s : rng) (pop_size size : nat) : result (list nat * rng) :=
  if decide (pop_size = 0 /\ size <> 0) then
    Err (ValueError "a must be greater than 0 unless no samples are taken")
  else if decide (pop_size < size) then
    Err (ValueError "Cannot take a larger sample than population when 'replace=False'")
  else
    let '(p, s') := permutation s pop_size in Ok (take size p, s').

(** [DataFrame.sample(frac=frac)] with the global random state: the size is
    [round(frac * len(df))]; the sampled rows are [df.take(locs)], which keeps
    their index labels. *)
Definition sample (frac : Q) (s : rng) (df : list row) : result (list row * rng) :=
  if Qlt_le_dec 1 frac then
    Err (ValueError "Replace has to be set to `True` when upsampling the population `frac` > 1.")
  else if Qlt_le_dec frac 0 then
    Err (ValueError "A negative number of rows requested. Please provide `frac` >= 0.")
  else
    let size := Z.to_nat (py_round (frac * inject_Z (Z.of_nat (length df)))) in
    let! (locs, s') := choice s (length df) size in
    Ok (omap (fun p => df !! p) locs, s').

(** The body of the inner loop for one relation:
    [temp = data[data['relation'] == relation].sample(frac=frac_size)] and
    [data = data[~data.index.isin(temp.index)]]. *)
Definition split_relation (frac : Q) (rel : string) (s : rng) (data : list row)
  : result (list row * rng * list row) :=
  let! (temp, s') := sample frac s (filter (fun x => relation (snd x) = rel) data) in
  Ok (temp, s', filter (fun x => fst x ∉ fst <$> temp) data).

(** The inner loop over the relations; the frames are returned already
    concatenated, in loop order. *)
Fixpoint split_round (frac : Q) (rels : list string) (s : rng) (data : list row)
  : result (list row * rng * list row) :=
  match rels with
  | [] => Ok ([], s, data)
  | rel :: rels' =>
      let! (temp, s1, data1) := split_relation frac rel s data in
      let! (frames, s2, data2) := split_round frac rels' s1 data1 in
      Ok (temp ++ frames, s2, data2)
  end.

(** The outer loop over the fractions.  [pd.concat(frames, ignore_index=True)]
    drops the index labels, so each split is a list of triples. *)
Fixpoint split_rounds (fracs : list Q) (rels : list string) (s : rng) (data : list row)
  : result (list (list triple) * rng) :=
  match fracs with
  | [] => Ok ([], s)
  | frac :: fracs' =>
      let! (frames, s1, data1) := split_round frac rels s data in
      let! (split, s2) := split_rounds fracs' rels s1 data1 in
      Ok ((snd <$> frames) :: split, s2)
  end.

(** [validation_size = validation_size / (1 - train_size)]; [test_size = 1]. *)
Definition split_fractions (train_size validation_size : Q) : result (list Q) :=
  if Qeq_dec (1 - train_size) 0 then Err ZeroDivisionError
  else Ok [train_size; (validation_size / (1 - train_size))%Q; 1%Q].

(** [_weighted_splitter]: the three splits (as the Python tuple) and the
    random state after the call. *)
Definition weighted_splitter (s : rng) (edgelist : list row)
    (train_size validation_size : Q) : result (list (list triple) * rng) :=
  let! fracs := split_fractions train_size validation_size in
  let unique_rels := unique_relations edgelist in
  let data := drop_duplicates edgelist in
  split_rounds fracs unique_rels s data.

End Sampling.

End Splitter.

Arguments Splitter.swap {A} i j l : simpl never.

(** ** kge.py: [do_kge] *)

Module KGE.

(** A row of the input edgelist.  [e_label] is the cell of the [label]
    column, [None] standing for a missing value (NaN). *)
Record edge_row := mk_edge_row {
  e_source : string; e_relation : string; e_target : string;
  e_label : option string }.

(** The input frame: whether it has a [label] column, and its rows with their
    index labels.  Without the column the [e_label] cells are not read. *)
Record edge_frame := mk_edge_frame {
  label_column : bool;
  rows : list (nat * edge_row) }.

(** [edgelist['label']]. *)
Definition get_label (edgelist : edge_frame) : result (list (option string)) :=
  if label_column edgelist then Ok ((fun r => e_label (snd r)) <$> rows edgelist)
  else Err (KeyError "label").

(** [edgelist.drop(columns='label')]. *)
Definition drop_label (edgelist : edge_frame) : result (list Splitter.row) :=
  if label_column edgelist then
    Ok ((fun '(i, r) => (i, Splitter.mk_triple (e_source r) (e_relation r) (e_target r)))
          <$> rows edgelist)
  else Err (KeyError "['label'] not found in axis").

(** [{patient: label for patient, label in zip(...)}]: later pairs overwrite
    earlier ones, as in a dict comprehension. *)
Definition dict_of_pairs {V} (pairs : list (string * V)) : gmap string V :=
  foldl (fun m '(k, v) => <[k:=v]> m) ∅ pairs.

(** Lines 37-43 of [do_kge]: the labeled-node mapping and the edgelist
    without its [label] column, which is then handed to the splitter. *)
Definition kge_prepare (edgelist : edge_frame)
  : result (gmap string (option string) * list Splitter.row) :=
  let! label_cells := get_label edgelist in
  let labeled := filter (fun '(r, cell) => is_Some cell)
                   (zip (rows edgelist) label_cells) in
  let unique_nodes := Splitter.dedup_by (fun '(r, _) => e_source (snd r)) [] labeled in
  let label_mapping :=
    dict_of_pairs ((fun '(r, cell) => (e_source (snd r), cell)) <$> unique_nodes) in
  let! edges := drop_label edgelist in
  Ok (label_mapping, edges).

(** The reading of the spec for the labeled-node mapping, to compare with
    [kge_prepare]: the label cell of the first row with source [src] and a
    non-missing label, if any. *)
Definition first_labeled_cell (rs : list (nat * edge_row)) (src : string)
  : option (option string) :=
  (fun r => e_label (snd r)) <$>
    find (fun r => bool_decide (e_source (snd r) = src /\ is_Some (e_label (snd r)))) rs.

(** [entity_to_id[x]] on pykeen's dict from entity names to indices, an
    association list in insertion order. *)
Definition entity_id (entity_to_id : list (string * nat)) (x : string) : nat :=
  match list_find (fun p => p.1 = x) entity_to_id with
  | Some (_, (_, i)) => i
  | None => 0
  end.

Definition id_le (entity_to_id : list (string * nat)) : relation string :=
  fun a b => entity_id entity_to_id a <= entity_id entity_to_id b.

Global Instance id_le_dec entity_to_id : RelDecision (id_le entity_to_id).
Proof. intros a b. unfold id_le. apply _. Defined.

(** [[f'Component_{i}' for i in range(1, embedding_values.shape[1] + 1)]]. *)
Definition embedding_columns (k : nat) : list string :=
  (fun i => "Component_" +:+ pretty i) <$> seq 1 k.

(** [sorted(node_list, key=lambda x: entity_to_id[x])], with [node_list]
    the dict's keys; a stable sort. *)
Definition embedding_index (entity_to_id : list (string * nat)) : list string :=
  merge_sort (id_le entity_to_id) (fst <$> entity_to_id).

(** The embedding table: index, columns and the rows of values. *)
Record table := mk_table {
  t_index : list string;
  t_columns : list string;
  t_values : list (list Q) }.

(** [embedding_values.shape[1]]. *)
Definition shape1 (values : list (list Q)) : nat :=
  match values with
  | [] => 0
  | r :: _ => length r
  end.

Definition embedding_table (entity_to_id : list (string * nat))
    (embedding_values : list (list Q)) : table :=
  mk_table (embedding_index entity_to_id)
    (embedding_columns (shape1 embedding_values)) embedding_values.

(** The [return_patients] branch: keep the rows whose index is in the design
    table's [FileName] column, then [embedding.at[index, 'label'] =
    label_mapping[index]] for each kept index in order.  The result lists the
    kept rows with their label. *)
Definition attach_labels {V} (file_names : list string)
    (label_mapping : gmap string V) (embedding : list (string * list Q))
  : result (list (string * list Q * V)) :=
  let kept := filter (fun r => r.1 ∈ file_names) embedding in
  mapM (fun '(index, values) =>
          let! label := dict_get label_mapping index in Ok (index, values, label))
    kept.

End KGE.

(** ** Output paths: [os.path.join] in [do_kge], [run_optimization] and [run_pipeline] *)

Module Paths.

(** [b.startswith('/')]. *)
Definition starts_with_sep (b : string) : bool :=
  match b with
  | String c _ => bool_decide (c = "/"%char)
  | EmptyString => false
  end.

(** [path.endswith('/')]. *)
Definition ends_with_sep (path : string) : bool :=
  match last (String.list_ascii_of_string path) with
  | Some c => bool_decide (c = "/"%char)
  | None => false
  end.

(** One iteration of the loop of [posixpath.join]:
    [if b.startswith(sep): path = b],
    [elif not path or path.endswith(sep): path += b],
    [else: path += sep + b]. *)
Definition join_step (path b : string) : string :=
  if starts_with_sep b then b
  else if bool_decide (path = "") || ends_with_sep path then path +:+ b
  else path +:+ ("/" +:+ b).

(** [os.path.join(a, *p)] on POSIX. *)
Definition path_join (a : string) (p : list string) : string := foldl join_step a p.

(** [do_kge], lines 52-54: where the three splits are written. *)
Definition train_path (out : string) : string := path_join out ["train.edgelist"].
Definition validation_path (out : string) : string := path_join out ["validation.edgelist"].
Definition test_path (out : string) : string := path_join out ["test.edgelist"].

(** [run_optimization]: the directory the HPO results are saved to. *)
Definition optimization_dir (out_dir : string) : string :=
  path_join out_dir ["pykeen_results_optim"].

(** [run_pipeline]: the configuration file it reads and the directory it
    saves the final pipeline to. *)
Definition config_path (out_dir : string) : string :=
  path_join out_dir ["pykeen_results_optim"; "best_pipeline"; "pipeline_config.json"].

Definition best_pipeline_dir (out_dir : string) : string :=
  path_join out_dir ["pykeen_results_final"].

End Paths.

(** * Proofs *)

(** ** The error monad and [mapM] *)

Section MapM.
Context {A B : Type} (f : A -> result B).

Lemma mapM_cons x l :
  mapM f (x :: l) = rbind (f x) (fun y => rbind (mapM f l) (fun k => Ok (y :: k))).
Proof. reflexivity. Qed.

Lemma mapM_Ok_Forall2 l out :
  mapM f l = Ok out -> Forall2 (fun x y => f x = Ok y) l out.
Proof.
  revert out; induction l as [|x l IH]; intros out H.
  - cbv in H. injection H as <-. constructor.
  - rewrite mapM_cons in H. destruct (f x) as [y|e] eqn:Hx; simpl in H; [|discriminate].
    destruct (mapM f l) as [k|e] eqn:Hl; simpl in H; [|discriminate].
    injection H as <-. constructor; auto.
Qed.

Lemma mapM_Err_elem l e :
  mapM f l = Err e -> exists x, x ∈ l /\ f x = Err e.
Proof.
  induction l as [|x l IH]; intros H; [discriminate|].
  rewrite mapM_cons in H. destruct (f x) as [y|e'] eqn:Hx; simpl in H.
  - destruct (mapM f l) as [k|e'] eqn:Hl; simpl in H; [discriminate|].
    destruct (IH H) as (x' & Hin & Hx'). exists x'. split; [by right|done].
  - injection H as ->. exists x. split; [left|done].
Qed.

Lemma mapM_Err_of_elem l x e :
  x ∈ l -> f x = Err e -> exists e', mapM f l = Err e'.
Proof.
  intros Hin Hx. destruct (mapM f l) as [out|e'] eqn:Hl; [|eauto].
  apply mapM_Ok_Forall2 in Hl.
  apply list_elem_of_lookup in Hin as [i Hi].
  destruct (Forall2_lookup_l _ _ _ _ _ Hl Hi) as (y & _ & Hy).
  congruence.
Qed.

End MapM.

(** ** First-occurrence deduplication *)

Section Dedup.
Context {A K : Type} `{EqDecision K} (key : A -> K).

Lemma dedup_by_sublist seen l : Splitter.dedup_by key seen l `sublist_of` l.
Proof.
  revert seen; induction l as [|x l IH]; intros seen; simpl; [done|].
  case_decide; [by apply sublist_cons|by apply sublist_skip].
Qed.

Lemma dedup_by_nodup seen l :
  NoDup (key <$> Splitter.dedup_by key seen l) /\
  (forall z, z ∈ Splitter.dedup_by key seen l -> key z ∉ seen).
Proof.
  revert seen; induction l as [|x l IH]; intros seen; simpl.
  - split; [constructor|set_solver].
  - case_decide as Hx; [apply IH|].
    destruct (IH (key x :: seen)) as [Hnd Hnot]. split.
    + simpl. constructor; [|done].
      intros Hin. apply list_elem_of_fmap in Hin as (z & Hz & Hzin).
      apply (Hnot z Hzin). rewrite <- Hz. by left.
    + intros z Hz. apply elem_of_cons in Hz as [->|Hz]; [done|].
      intros Hin. apply (Hnot z Hz). by right.
Qed.

Lemma dedup_by_complete seen l y :
  y ∈ l -> key y ∈ seen \/ exists z, z ∈ Splitter.dedup_by key seen l /\ key z = key y.
Proof.
  revert seen; induction l as [|x l IH]; intros seen Hy; [set_solver|]; simpl.
  apply elem_of_cons in Hy as [->|Hy].
  - case_decide; [by left|]. right. exists x. split; [left|done].
  - case_decide.
    + by apply IH.
    + destruct (IH (key x :: seen) Hy) as [Hs|(z & Hz & Hzk)].
      * apply elem_of_cons in Hs as [Hs|Hs]; [|by left].
        right. exists x. split; [left|done].
      * right. exists z. split; [by right|done].
Qed.

Lemma dedup_by_find seen l k :
  k ∉ seen ->
  find (fun x => bool_decide (key x = k)) (Splitter.dedup_by key seen l) =
  find (fun x => bool_decide (key x = k)) l.
Proof.
  revert seen; induction l as [|x l IH]; intros seen Hk; simpl; [done|].
  case_decide as Hx.
  - rewrite bool_decide_false; [by apply IH|]. intros <-. done.
  - simpl. case_bool_decide as Hxk; [done|].
    apply IH. intros Hin. apply elem_of_cons in Hin as [->|]; done.
Qed.

End Dedup.

(** ** classify.py *)

Section ClassifyProofs.
Import Classify.




End ClassifyProofs.

(** ** kge.py: [run_optimization] *)

Example config_keys_listed :
  Optim.config_keys =
  ["model"; "model_kwargs"; "model_kwargs_ranges"; "loss_function"; "loss_kwargs";
   "loss_kwargs_ranges"; "regularizer"; "optimizer"; "optimizer_kwargs";
   "optimizer_kwargs_ranges"; "training_loop"; "training_loop_kwargs";
   "training_kwargs"; "training_kwargs_ranges"; "negative_sampler";
   "negative_sampler_kwargs"; "negative_sampler_kwargs_ranges"; "stopper";
   "stopper_kwargs"; "evaluator"; "evaluator_kwargs"; "evaluation_kwargs";
   "n_trials"; "timeout"; "metric"; "direction"; "sampler"; "pruner"] /\
  length Optim.config_keys = 28.
Proof. split; reflexivity. Qed.

(** C10: if [model_config] lacks any of the 28 keys, [run_optimization]
    raises [KeyError] on a missing key before [hpo_pipeline] is called. *)
Theorem run_optimization_requires_all_keys {V : Type}
    (model_config : gmap string V) (key : string) :
  key ∈ Optim.config_keys -> model_config !! key = None ->
  exists k, k ∈ Optim.config_keys /\ model_config !! k = None /\
            Optim.run_optimization model_config = Err (KeyError k).
Proof.
  intros Hkey Hnone. unfold Optim.config_keys in *.
  apply list_elem_of_fmap in Hkey as ([kw key'] & Heq & Hin). simpl in Heq. subst key'.
  destruct (Optim.run_optimization model_config) as [out|e] eqn:Hrun;
    unfold Optim.run_optimization in Hrun.
  { exfalso. apply mapM_Ok_Forall2 in Hrun.
    apply list_elem_of_lookup in Hin as [i Hi].
    destruct (Forall2_lookup_l _ _ _ _ _ Hrun Hi) as (y & _ & Hy).
    simpl in Hy. unfold dict_get in Hy. rewrite Hnone in Hy. discriminate. }
  destruct (mapM_Err_elem _ _ _ Hrun) as ([kw' k] & Hin' & Hk).
  simpl in Hk. unfold dict_get in Hk.
  destruct (model_config !! k) eqn:Hmk; simpl in Hk; [discriminate|].
  injection Hk as <-. exists k. split; [|done].
  apply list_elem_of_fmap. by exists (kw', k).
Qed.

Lemma run_optimization_requires_all_keys_witness :
  ("timeout" ∈ Optim.config_keys /\
   (<["model" := 1]> ∅ : gmap string nat) !! "timeout" = None) /\
  exists k, k ∈ Optim.config_keys /\ (<["model" := 1]> ∅ : gmap string nat) !! k = None /\
            Optim.run_optimization (<["model" := 1]> ∅ : gmap string nat) = Err (KeyError k).
Proof.
  assert (Hin : "timeout" ∈ Optim.config_keys) by (vm_compute; repeat (try (left; fail); right); left).
  assert (Hn : (<["model" := 1]> ∅ : gmap string nat) !! "timeout" = None) by reflexivity.
  split; [split; assumption|].
  exact (run_optimization_requires_all_keys _ "timeout" Hin Hn).
Defined.

(** ** List lemmas *)

Lemma find_ext {A} (f g : A -> bool) (l : list A) :
  (forall x, f x = g x) -> find f l = find g l.
Proof. intros Hfg. induction l as [|x l IH]; simpl; [done|]. by rewrite Hfg, IH. Qed.

Lemma find_fmap {A B} (f : B -> bool) (h : A -> B) (l : list A) :
  find f (h <$> l) = h <$> find (fun x => f (h x)) l.
Proof. induction l as [|x l IH]; simpl; [done|]. by destruct (f (h x)). Qed.

Lemma find_filter {A} (f : A -> bool) (P : A -> Prop) `{forall x, Decision (P x)}
    (l : list A) :
  find f (filter P l) = find (fun x => f x && bool_decide (P x)) l.
Proof.
  induction l as [|x l IH]; simpl; [done|]. rewrite filter_cons.
  case_decide as HP.
  - simpl. rewrite (bool_decide_true _ HP), andb_true_r. by destruct (f x).
  - rewrite (bool_decide_false _ HP), andb_false_r. done.
Qed.

Lemma zip_fmap_diag {A B} (h : A -> B) (l : list A) :
  zip l (h <$> l) = (fun x => (x, h x)) <$> l.
Proof. induction l as [|x l IH]; [done|]. simpl. f_equal. exact IH. Qed.

(** ** kge.py: [do_kge] *)

Section KGEProofs.
Import KGE.

Lemma dict_of_pairs_go {V} (pairs : list (string * V)) (m0 : gmap string V) k :
  NoDup pairs.*1 ->
  foldl (fun m '(k', v) => <[k':=v]> m) m0 pairs !! k =
  match find (fun p => bool_decide (p.1 = k)) pairs with
  | Some p => Some p.2
  | None => m0 !! k
  end.
Proof.
  revert m0; induction pairs as [|[k0 v0] pairs IH]; intros m0 Hnd; simpl; [done|].
  inversion Hnd as [|? ? Hk0 Hnd']; subst.
  rewrite IH by done. case_bool_decide as Hk; simpl.
  - subst k0. destruct (find _ pairs) as [p|] eqn:Hf.
    + exfalso. apply find_some in Hf as [Hp Hpk].
      apply bool_decide_eq_true in Hpk. apply Hk0.
      apply list_elem_of_fmap. exists p. split; [done|]. by apply list_elem_of_In.
    + by rewrite lookup_insert_eq.
  - destruct (find _ pairs); [done|]. by rewrite lookup_insert_ne.
Qed.

Lemma dict_of_pairs_lookup {V} (pairs : list (string * V)) k :
  NoDup pairs.*1 ->
  dict_of_pairs pairs !! k = snd <$> find (fun p => bool_decide (p.1 = k)) pairs.
Proof.
  intros Hnd. unfold dict_of_pairs. rewrite dict_of_pairs_go by done.
  by destruct (find _ pairs).
Qed.

(** C3: with a [label] column, [do_kge] builds the labeled-node mapping
    without failing; it holds, for every source, the label of the first row
    with that source and a non-missing label, and has an entry exactly for the
    sources of such rows. *)
Theorem kge_label_mapping_first_wins (rs : list (nat * edge_row)) :
  match kge_prepare (mk_edge_frame true rs) with
  | Ok (label_mapping, _) =>
      (forall src, label_mapping !! src = first_labeled_cell rs src) /\
      (forall src, is_Some (label_mapping !! src) <->
         exists r, r ∈ rs /\ e_source (snd r) = src /\ is_Some (e_label (snd r)))
  | Err _ => False
  end.
Proof.
  unfold kge_prepare, get_label, drop_label. simpl.
  set (key := fun rc : (nat * edge_row) * option string => let '(r, _) := rc in e_source r.2).
  set (labeled := filter _ _).
  set (unique_nodes := Splitter.dedup_by _ [] labeled).
  assert (Hkeys : ((fun '(r, cell) => (e_source (snd r), cell)) <$> unique_nodes).*1 =
                  key <$> unique_nodes).
  { rewrite <- list_fmap_compose. apply list_fmap_ext. by intros ? [[? ?] ?]. }
  assert (Hlook : forall src,
    dict_of_pairs ((fun '(r, cell) => (e_source (snd r), cell)) <$> unique_nodes) !! src =
    first_labeled_cell rs src).
  { intros src. rewrite dict_of_pairs_lookup.
    2:{ rewrite Hkeys. apply (dedup_by_nodup key). }
    rewrite find_fmap.
    rewrite (find_ext _ (fun x => bool_decide (key x = src))) by (by intros [[? ?] ?]).
    unfold unique_nodes. rewrite (dedup_by_find key) by apply not_elem_of_nil.
    unfold labeled. rewrite find_filter, zip_fmap_diag, find_fmap.
    unfold first_labeled_cell.
    rewrite (find_ext _ (fun r => bool_decide (e_source (snd r) = src /\ is_Some (e_label (snd r))))).
    2:{ intros [i r]. simpl. by rewrite bool_decide_and. }
    by destruct (find _ rs) as [[i r]|]. }
  split; [exact Hlook|].
  intros src. rewrite Hlook. unfold first_labeled_cell. split.
  - intros [c Hc]. destruct (find _ rs) as [r|] eqn:Hf; [|discriminate].
    apply find_some in Hf as [Hin Hb]. apply bool_decide_eq_true in Hb as [Hs Hl].
    exists r. split; [by apply list_elem_of_In|done].
  - intros (r & Hin & Hs & Hl). destruct (find _ rs) as [r'|] eqn:Hf; [by eexists|].
    exfalso. eapply find_none in Hf; [|by apply list_elem_of_In].
    rewrite bool_decide_true in Hf; [discriminate|done].
Qed.

(** C8 (counterexample): an edgelist with only [source], [relation] and
    [target] columns makes [do_kge] fail at [edgelist['label']]. *)
Lemma kge_prepare_needs_label_column :
  ~ (forall edgelist : edge_frame, label_column edgelist = false ->
       exists v, kge_prepare edgelist = Ok v).
Proof.
  intros H.
  destruct (H (mk_edge_frame false [(0, mk_edge_row "p1" "r1" "g1" None)]) eq_refl)
    as [v Hv].
  vm_compute in Hv. discriminate.
Qed.

(** C8 (amended): the [label] column is required.  Without it [do_kge]
    raises [KeyError('label')] before splitting; with it, this step does not
    fail. *)
Theorem kge_prepare_label_column (rs : list (nat * edge_row)) :
  kge_prepare (mk_edge_frame false rs) = Err (KeyError "label") /\
  exists label_mapping edges, kge_prepare (mk_edge_frame true rs) = Ok (label_mapping, edges).
Proof. split; [reflexivity|]. do 2 eexists. reflexivity. Qed.

(** C7: the index of the embedding table is the list of entity names sorted
    by their pykeen index, and its columns are [Component_1] to [Component_k]
    with [k] the width of the embedding matrix. *)
Theorem embedding_table_layout (entity_to_id : list (string * nat))
    (embedding_values : list (list Q)) :
  let t := embedding_table entity_to_id embedding_values in
  t_index t ≡ₚ entity_to_id.*1 /\
  Sorted (fun a b => entity_id entity_to_id a <= entity_id entity_to_id b) (t_index t) /\
  length (t_columns t) = shape1 embedding_values /\
  (forall i, i < shape1 embedding_values ->
     t_columns t !! i = Some ("Component_" +:+ pretty (S i))).
Proof.
  simpl. split; [|split; [|split]].
  - apply merge_sort_Permutation.
  - assert (Total (id_le entity_to_id)) by (intros a b; unfold id_le; lia).
    apply (Sorted_merge_sort (id_le entity_to_id)).
  - unfold embedding_columns. by rewrite length_fmap, length_seq.
  - intros i Hi. unfold embedding_columns.
    rewrite list_lookup_fmap, lookup_seq_lt by done. reflexivity.
Qed.

(** C9: with [return_patients], every kept index that has no entry in the
    labeled-node mapping makes the label attachment raise [KeyError]; when it
    succeeds, every kept row carries the label the mapping holds for it. *)
Theorem attach_labels_missing_label_raises {V : Type} (file_names : list string)
    (label_mapping : gmap string V) (embedding : list (string * list Q)) :
  (forall x, x ∈ embedding -> x.1 ∈ file_names -> label_mapping !! x.1 = None ->
     exists i, attach_labels file_names label_mapping embedding = Err (KeyError i) /\
               i ∈ file_names /\ label_mapping !! i = None) /\
  (forall out, attach_labels file_names label_mapping embedding = Ok out ->
     Forall2 (fun r o => o.1.1 = r.1 /\ o.1.2 = r.2 /\ label_mapping !! r.1 = Some o.2)
       (filter (fun r => r.1 ∈ file_names) embedding) out).
Proof.
  unfold attach_labels. split.
  - intros x Hx Hfile Hnone.
    assert (Hkept : x ∈ filter (fun r => r.1 ∈ file_names) embedding)
      by (apply list_elem_of_filter; done).
    destruct (mapM _ _) as [out|e] eqn:Hrun.
    + exfalso. apply mapM_Ok_Forall2 in Hrun.
      apply list_elem_of_lookup in Hkept as [j Hj].
      destruct (Forall2_lookup_l _ _ _ _ _ Hrun Hj) as (y & _ & Hy).
      destruct x as [index values]. simpl in *.
      unfold dict_get in Hy. rewrite Hnone in Hy. discriminate.
    + destruct (mapM_Err_elem _ _ _ Hrun) as ([index values] & Hin & He).
      simpl in He. unfold dict_get in He.
      destruct (label_mapping !! index) eqn:Hl; simpl in He; [discriminate|].
      injection He as <-. exists index. split; [done|]. split; [|done].
      by apply list_elem_of_filter in Hin as [? _].
  - intros out Hrun. apply mapM_Ok_Forall2 in Hrun.
    eapply Forall2_impl; [exact Hrun|].
    intros [index values] o Ho. simpl in Ho. unfold dict_get in Ho.
    destruct (label_mapping !! index) eqn:Hl; simpl in Ho; [|discriminate].
    injection Ho as <-. done.
Qed.

End KGEProofs.

(** ** kge.py: [_weighted_splitter] *)

Section SplitterProofs.
Import Splitter.
Context {rng : Type} (random_interval : rng -> nat -> nat * rng).
Local Open Scope Q_scope.

(** *** Sampling *)

Lemma swap_perm {A} i j (l : list A) : swap i j l ≡ₚ l.
Proof.
  unfold swap. destruct (l !! i) eqn:Hi, (l !! j) eqn:Hj; try done.
  by apply Permutation_insert_swap.
Qed.

Lemma shuffle_go_perm {A} s i (l : list A) :
  (shuffle_go rng random_interval s i l).1 ≡ₚ l.
Proof.
  revert s l; induction i as [|i IH]; intros s l; simpl; [done|].
  destruct (random_interval s (S i)) as [j s']. rewrite IH. apply swap_perm.
Qed.

Lemma omap_lookup_shift {A} (x : A) (l : list A) (ps : list nat) :
  omap (fun p => (x :: l) !! p) (S <$> ps) = omap (fun p => l !! p) ps.
Proof.
  induction ps as [|p ps IH]; [done|]. simpl.
  destruct (l !! p); [f_equal|]; exact IH.
Qed.

Lemma omap_lookup_seq {A} (l : list A) :
  omap (fun p => l !! p) (seq 0 (length l)) = l.
Proof.
  induction l as [|x l IH]; [done|].
  change (seq 0 (length (x :: l))) with (0%nat :: seq 1 (length l)).
  rewrite <- fmap_S_seq.
  transitivity (x :: omap (fun p => (x :: l) !! p) (S <$> seq 0 (length l)));
    [reflexivity|].
  by rewrite omap_lookup_shift, IH.
Qed.

Lemma permutation_perm s n : (permutation rng random_interval s n).1 ≡ₚ seq 0 n.
Proof. apply shuffle_go_perm. Qed.

Lemma sample_perm frac s (df : list row) temp s' :
  sample rng random_interval frac s df = Ok (temp, s') ->
  exists rest, df ≡ₚ temp ++ rest.
Proof.
  unfold sample. destruct (Qlt_le_dec 1 frac); [discriminate|].
  destruct (Qlt_le_dec frac 0); [discriminate|].
  set (size := Z.to_nat _). unfold choice.
  case_decide; [discriminate|]. case_decide; [discriminate|].
  pose proof (permutation_perm s (length df)) as Hp.
  destruct (permutation rng random_interval s (length df)) as [p s1]. simpl in *.
  intros [= <- <-].
  exists (omap (fun p => df !! p) (drop size p)).
  rewrite <- omap_app, take_drop, Hp. by rewrite omap_lookup_seq.
Qed.






(** *** One relation, one round *)









(** *** The whole splitter *)

Lemma drop_duplicates_sub (E : list row) x : x ∈ drop_duplicates E -> x ∈ E.
Proof. intros Hx. eapply elem_of_sublist; [exact Hx|apply dedup_by_sublist]. Qed.

Lemma relation_in_unique_relations (E : list row) x :
  x ∈ E -> relation x.2 ∈ unique_relations E.
Proof.
  intros Hx. unfold unique_relations. rewrite merge_sort_Permutation.
  destruct (dedup_by_complete id [] ((fun x => relation x.2) <$> E) (relation x.2))
    as [Hn|(z & Hz & Hzk)].
  - by apply (list_elem_of_fmap_2 (fun x : row => relation x.2)).
  - by apply not_elem_of_nil in Hn.
  - unfold id in Hzk. by subst z.
Qed.

Lemma unique_relations_elem (E : list row) r :
  r ∈ unique_relations E <-> exists x, x ∈ drop_duplicates E /\ relation x.2 = r.
Proof.
  split.
  - intros Hr. unfold unique_relations in Hr. rewrite merge_sort_Permutation in Hr.
    eapply elem_of_sublist in Hr; [|apply dedup_by_sublist].
    apply list_elem_of_fmap in Hr as (x & -> & Hx).
    destruct (dedup_by_complete snd [] E x Hx) as [Hn|(z & Hz & Hzx)].
    + by apply not_elem_of_nil in Hn.
    + exists z. split; [done|]. by rewrite Hzx.
  - intros (x & Hx & <-). by apply relation_in_unique_relations, drop_duplicates_sub.
Qed.

Lemma unique_relations_nodup (E : list row) : NoDup (unique_relations E).
Proof.
  unfold unique_relations. rewrite merge_sort_Permutation.
  rewrite <- (list_fmap_id (dedup_by id [] _)). apply dedup_by_nodup.
Qed.

Lemma unique_relations_sorted (E : list row) : Sorted String.le (unique_relations E).
Proof. apply Sorted_merge_sort. apply _. Qed.





(** C4: the splitter is a function of the random state and of the
    deduplicated input: two runs from the same state on inputs with the same
    deduplicated rows give the same splits and the same final state.  The
    relation types are visited in sorted order, without repetition, so the
    order in which they first appear in the input does not matter. *)
Theorem weighted_splitter_reproducible s (E1 E2 : list row) t v :
  drop_duplicates E1 = drop_duplicates E2 ->
  weighted_splitter rng random_interval s E1 t v =
  weighted_splitter rng random_interval s E2 t v /\
  Sorted String.le (unique_relations E1) /\ NoDup (unique_relations E1).
Proof.
  intros Hdd. split; [|split; [apply unique_relations_sorted|apply unique_relations_nodup]].
  assert (Hrels : unique_relations E1 = unique_relations E2).
  { apply (Sorted_unique String.le); [apply unique_relations_sorted..|].
    apply NoDup_Permutation; [apply unique_relations_nodup..|].
    intros r. rewrite !unique_relations_elem, Hdd. done. }
  unfold weighted_splitter. by rewrite Hrels, Hdd.
Qed.

End SplitterProofs.

(** *** Concrete runs *)

Section SplitterRuns.
Import Splitter.
Local Open Scope Q_scope.





Lemma weighted_splitter_reproducible_witness :
  weighted_splitter nat (fun s i => (((s * 5 + 3) mod 17) mod S i, (s * 5 + 3) mod 17)%nat)
    2%nat
    [(0%nat, mk_triple "p1" "r2" "g1"); (1%nat, mk_triple "p1" "r2" "g1");
     (2%nat, mk_triple "p2" "r1" "g2")] (4#5) (1#10) =
  weighted_splitter nat (fun s i => (((s * 5 + 3) mod 17) mod S i, (s * 5 + 3) mod 17)%nat)
    2%nat
    [(0%nat, mk_triple "p1" "r2" "g1"); (2%nat, mk_triple "p2" "r1" "g2")] (4#5) (1#10) /\
  Sorted String.le
    (unique_relations [(0%nat, mk_triple "p1" "r2" "g1"); (1%nat, mk_triple "p1" "r2" "g1");
                       (2%nat, mk_triple "p2" "r1" "g2")]) /\
  NoDup
    (unique_relations [(0%nat, mk_triple "p1" "r2" "g1"); (1%nat, mk_triple "p1" "r2" "g1");
                       (2%nat, mk_triple "p2" "r1" "g2")]).
Proof. apply weighted_splitter_reproducible. vm_compute. reflexivity. Defined.

End SplitterRuns.

(** * Further properties of the code *)

Lemma filter_all {A} (P : A -> Prop) `{forall x, Decision (P x)} (l : list A) :
  (forall x, x ∈ l -> P x) -> filter P l = l.
Proof.
  induction l as [|x l IH]; intros Hl; [done|]. rewrite filter_cons_True by (apply Hl; left).
  f_equal. apply IH. intros y Hy. apply Hl. by right.
Qed.



Lemma StronglySorted_const {A} (R : relation A) `{!Reflexive R} (l : list A) c :
  (forall x, x ∈ l -> x = c) -> StronglySorted R l.
Proof.
  induction l as [|x l IH]; intros Hc; constructor.
  - apply IH. intros y Hy. apply Hc. by right.
  - apply Forall_forall. intros y Hy.
    rewrite (Hc x (list_elem_of_here _ _)), (Hc y (list_elem_of_further _ _ _ Hy)).
    reflexivity.
Qed.

Section SplitterExtra.
Import Splitter.
Context {rng : Type} (random_interval : rng -> nat -> nat * rng).
Local Open Scope Q_scope.

Lemma omap_lookup_length {A} (df : list A) (locs : list nat) :
  (forall i, i ∈ locs -> (i < length df)%nat) ->
  length (omap (fun p => df !! p) locs) = length locs.
Proof.
  induction locs as [|i locs IH]; intros Hl; [done|]. simpl.
  destruct (lookup_lt_is_Some_2 df i) as [y Hy]; [apply Hl; left|].
  rewrite Hy. simpl. f_equal. apply IH. intros j Hj. apply Hl. by right.
Qed.

Lemma sample_length frac s (df : list row) temp s' :
  sample rng random_interval frac s df = Ok (temp, s') ->
  length temp = Z.to_nat (py_round (frac * inject_Z (Z.of_nat (length df)))).
Proof.
  unfold sample. destruct (Qlt_le_dec 1 frac); [discriminate|].
  destruct (Qlt_le_dec frac 0); [discriminate|].
  set (size := Z.to_nat _). unfold choice.
  case_decide; [discriminate|]. case_decide as Hsz; [discriminate|].
  pose proof (permutation_perm random_interval s (length df)) as Hp.
  destruct (permutation rng random_interval s (length df)) as [p s1]. simpl in *.
  intros [= <- <-].
  rewrite omap_lookup_length.
  - rewrite length_take, Hp, length_seq. lia.
  - intros i Hi. apply elem_of_take in Hi as (j & Hj & _).
    assert (Hin : i ∈ seq 0 (length df)) by (rewrite <- Hp; by eapply list_elem_of_lookup_2).
    apply elem_of_seq in Hin. lia.
Qed.



Lemma split_relation_facts frac rel s (data : list row) temp s' data' :
  split_relation rng random_interval frac rel s data = Ok (temp, s', data') ->
  (forall x, x ∈ temp -> relation x.2 = rel) /\
  length temp =
    Z.to_nat (py_round (frac * inject_Z (Z.of_nat
      (length (filter (fun x => relation x.2 = rel) data))))) /\
  exists lost, data ≡ₚ temp ++ data' ++ lost.
Proof.
  unfold split_relation.
  set (group := filter _ data).
  destruct (sample rng random_interval frac s group) as [[temp0 s0]|e] eqn:Hs;
    simpl; [|discriminate].
  intros [= <- <- <-].
  destruct (sample_perm _ _ _ _ _ _ Hs) as [rest Hgr].
  assert (Hrel : forall x, x ∈ temp0 -> relation x.2 = rel).
  { intros x Hx. assert (Hg : x ∈ group) by (rewrite Hgr; set_solver).
    by apply list_elem_of_filter in Hg as [? _]. }
  split; [done|]. split; [by apply (sample_length frac s group temp0 s0)|].
  set (P := fun x : row => x.1 ∈ temp0.*1).
  exists (filter P (rest ++ filter (fun x => ~ relation x.2 = rel) data)).
  assert (Hdata : data ≡ₚ temp0 ++ rest ++ filter (fun x => ~ relation x.2 = rel) data).
  { rewrite app_assoc, <- Hgr. symmetry. apply filter_app_complement. }
  assert (HP : filter P data ≡ₚ temp0 ++ filter P (rest ++ filter (fun x => ~ relation x.2 = rel) data)).
  { transitivity (filter P (temp0 ++ rest ++ filter (fun x => ~ relation x.2 = rel) data));
      [by apply filter_Permutation|].
    rewrite filter_app, (filter_all P temp0); [done|].
    intros x Hx. by apply list_elem_of_fmap_2. }
  rewrite <- (filter_app_complement P data) at 1. rewrite HP.
  rewrite <- app_assoc. f_equiv. apply Permutation_app_comm.
Qed.

Lemma split_round_sub frac rels s (data : list row) frames s' data' :
  split_round rng random_interval frac rels s data = Ok (frames, s', data') ->
  exists lost, data ≡ₚ frames ++ data' ++ lost.
Proof.
  revert s data frames s' data'.
  induction rels as [|rel rels IH]; intros s data frames s' data'; simpl.
  - intros [= <- <- <-]. exists []. by rewrite app_nil_r.
  - destruct (split_relation _ _ frac rel s data) as [[[temp s1] data1]|e] eqn:Hr;
      simpl; [|discriminate].
    destruct (split_round _ _ frac rels s1 data1) as [[[fr s2] data2]|e] eqn:Hrs;
      simpl; [|discriminate].
    intros [= <- <- <-].
    destruct (split_relation_facts _ _ _ _ _ _ _ Hr) as (_ & _ & l1 & H1).
    destruct (IH _ _ _ _ _ Hrs) as [l2 H2].
    exists (l2 ++ l1). rewrite H1, H2. rewrite <- !app_assoc. done.
Qed.

Lemma split_round_relations frac rels s (data : list row) frames s' data' :
  split_round rng random_interval frac rels s data = Ok (frames, s', data') ->
  forall x, x ∈ frames -> relation x.2 ∈ rels.
Proof.
  revert s data frames s' data'.
  induction rels as [|rel rels IH]; intros s data frames s' data'; simpl.
  - intros [= <- <- <-] x Hx. by apply not_elem_of_nil in Hx.
  - destruct (split_relation _ _ frac rel s data) as [[[temp s1] data1]|e] eqn:Hr;
      simpl; [|discriminate].
    destruct (split_round _ _ frac rels s1 data1) as [[[fr s2] data2]|e] eqn:Hrs;
      simpl; [|discriminate].
    intros [= <- <- <-] x Hx.
    destruct (split_relation_facts _ _ _ _ _ _ _ Hr) as (Hrel & _).
    apply elem_of_app in Hx as [Hx|Hx].
    + rewrite (Hrel x Hx). left.
    + right. by eapply IH.
Qed.

Lemma split_round_sorted frac rels s (data : list row) frames s' data' :
  StronglySorted String.le rels ->
  split_round rng random_interval frac rels s data = Ok (frames, s', data') ->
  StronglySorted String.le ((fun x => relation x.2) <$> frames).
Proof.
  revert s data frames s' data'.
  induction rels as [|rel rels IH]; intros s data frames s' data' Hs; simpl.
  - intros [= <- <- <-]. constructor.
  - destruct (split_relation _ _ frac rel s data) as [[[temp s1] data1]|e] eqn:Hr;
      simpl; [|discriminate].
    destruct (split_round _ _ frac rels s1 data1) as [[[fr s2] data2]|e] eqn:Hrs;
      simpl; [|discriminate].
    intros [= <- <- <-].
    apply StronglySorted_cons in Hs as [Hall Hs].
    destruct (split_relation_facts _ _ _ _ _ _ _ Hr) as (Hrel & _).
    rewrite fmap_app. apply StronglySorted_app_2.
    + intros r1 r2 Hr1 Hr2.
      apply list_elem_of_fmap in Hr1 as (x1 & -> & Hx1).
      apply list_elem_of_fmap in Hr2 as (x2 & -> & Hx2).
      rewrite (Hrel x1 Hx1).
      rewrite Forall_forall in Hall. apply Hall.
      by eapply split_round_relations.
    + apply (StronglySorted_const _ _ rel). intros r Hr'.
      apply list_elem_of_fmap in Hr' as (x & -> & Hx). by apply Hrel.
    + by eapply IH.
Qed.







Lemma weighted_splitter_rounds s (E : list row) t v splits s' :
  weighted_splitter rng random_interval s E t v = Ok (splits, s') ->
  ~ (1 - t == 0) /\
  exists f1 f2 f3 s1 s2 d1 d2 d3,
    split_round rng random_interval t (unique_relations E) s (drop_duplicates E) = Ok (f1, s1, d1) /\
    split_round rng random_interval (v / (1 - t)) (unique_relations E) s1 d1 = Ok (f2, s2, d2) /\
    split_round rng random_interval 1 (unique_relations E) s2 d2 = Ok (f3, s', d3) /\
    splits = [f1.*2; f2.*2; f3.*2].
Proof.
  unfold weighted_splitter, split_fractions.
  destruct (Qeq_dec (1 - t) 0) as [Hz|Hz]; [discriminate|]. simpl.
  destruct (split_round _ _ t _ s _) as [[[f1 s1] d1]|e] eqn:H1; simpl; [|discriminate].
  destruct (split_round _ _ (v / (1 - t)) _ s1 d1) as [[[f2 s2] d2]|e] eqn:H2;
    simpl; [|discriminate].
  destruct (split_round _ _ 1 _ s2 d2) as [[[f3 s3] d3]|e] eqn:H3; simpl; [|discriminate].
  intros [= <- <-]. split; [done|].
  by exists f1, f2, f3, s1, s2, d1, d2, d3.
Qed.


(** [_weighted_splitter], whatever the index labels: a successful call
    returns three splits that together repeat no edge, and that are, as a
    multiset, part of the deduplicated edgelist (the rest is [lost], which
    is empty when the index labels are distinct). *)
Theorem weighted_splitter_never_duplicates s (E : list row) t v splits s' :
  weighted_splitter rng random_interval s E t v = Ok (splits, s') ->
  exists tr va te lost,
    splits = [tr; va; te] /\
    (drop_duplicates E).*2 ≡ₚ tr ++ va ++ te ++ lost /\
    NoDup (tr ++ va ++ te).
Proof.
  intros Hrun.
  destruct (weighted_splitter_rounds _ _ _ _ _ _ Hrun)
    as (_ & f1 & f2 & f3 & s1 & s2 & d1 & d2 & d3 & H1 & H2 & H3 & ->).
  destruct (split_round_sub _ _ _ _ _ _ _ H1) as [l1 Hp1].
  destruct (split_round_sub _ _ _ _ _ _ _ H2) as [l2 Hp2].
  destruct (split_round_sub _ _ _ _ _ _ _ H3) as [l3 Hp3].
  assert (Hp : (drop_duplicates E).*2 ≡ₚ f1.*2 ++ f2.*2 ++ f3.*2 ++ (d3 ++ l3 ++ l2 ++ l1).*2).
  { rewrite Hp1, Hp2, Hp3, !fmap_app. solve_Permutation. }
  exists f1.*2, f2.*2, f3.*2, (d3 ++ l3 ++ l2 ++ l1).*2.
  split; [done|]. split; [done|].
  pose proof (proj1 (dedup_by_nodup snd [] E)) as Hnd.
  unfold drop_duplicates in Hp. rewrite Hp, !app_assoc in Hnd.
  apply NoDup_app in Hnd as [Hnd _]. rewrite app_assoc. exact Hnd.
Qed.

(** [_weighted_splitter]: every split lists its edges grouped by relation
    type, the groups in sorted order of the relation names, because the
    frames of one round are concatenated in the order of [unique_relations]. *)
Theorem weighted_splitter_grouped s (E : list row) t v splits s' :
  weighted_splitter rng random_interval s E t v = Ok (splits, s') ->
  Forall (fun split => Sorted String.le (relation <$> split)) splits.
Proof.
  intros Hrun.
  destruct (weighted_splitter_rounds _ _ _ _ _ _ Hrun)
    as (_ & f1 & f2 & f3 & s1 & s2 & d1 & d2 & d3 & H1 & H2 & H3 & ->).
  assert (Hs : StronglySorted String.le (unique_relations E))
    by (apply StronglySorted_merge_sort; apply _).
  assert (Hf : forall frac s0 d0 f s1' d1',
            split_round rng random_interval frac (unique_relations E) s0 d0 = Ok (f, s1', d1') ->
            Sorted String.le (relation <$> f.*2)).
  { intros frac s0 d0 f s1' d1' Hr. rewrite <- list_fmap_compose.
    apply StronglySorted_Sorted. by eapply split_round_sorted. }
  repeat constructor; eauto.
Qed.






End SplitterExtra.

Section ClassifyExtra.
Import Classify.


End ClassifyExtra.

Section MapMExtra.
Context {A B : Type} (f : A -> result B).

Lemma mapM_Ok_of_all l :
  (forall x, x ∈ l -> exists y, f x = Ok y) -> exists out, mapM f l = Ok out.
Proof.
  induction l as [|x l IH]; intros Hall; [by exists []|].
  rewrite mapM_cons. destruct (Hall x (list_elem_of_here _ _)) as [y Hy]. rewrite Hy. simpl.
  destruct IH as [out Hout]; [intros z Hz; apply Hall; by right|].
  rewrite Hout. simpl. by eexists.
Qed.

Lemma mapM_app_Err pre x post e :
  (forall y, y ∈ pre -> exists z, f y = Ok z) -> f x = Err e ->
  mapM f (pre ++ x :: post) = Err e.
Proof.
  induction pre as [|y pre IH]; intros Hpre Hx.
  - change ([] ++ x :: post) with (x :: post). rewrite mapM_cons, Hx. reflexivity.
  - change ((y :: pre) ++ x :: post) with (y :: (pre ++ x :: post)). rewrite mapM_cons. destruct (Hpre y (list_elem_of_here _ _)) as [z Hz]. rewrite Hz. simpl.
    rewrite IH; [done| |done]. intros w Hw. apply Hpre. by right.
Qed.

End MapMExtra.

Lemma mapM_ext_in {A B} (f g : A -> result B) l :
  (forall x, x ∈ l -> f x = g x) -> mapM f l = mapM g l.
Proof.
  induction l as [|x l IH]; intros Hfg; [done|]. rewrite !mapM_cons.
  rewrite (Hfg x (list_elem_of_here _ _)), IH; [done|]. intros y Hy. apply Hfg. by right.
Qed.

Section OptimExtra.
Import Optim.
Context {V : Type}.

(** [run_optimization] gets past reading [model_config] exactly when all 28
    keys are present; then each [hpo_pipeline] keyword receives the value of
    its key ([loss] that of [loss_function]), in source order. *)
Theorem run_optimization_ok (model_config : gmap string V) :
  ((exists args, run_optimization model_config = Ok args) <->
   (forall k, k ∈ config_keys -> is_Some (model_config !! k))) /\
  (forall args, run_optimization model_config = Ok args ->
     Forall2 (fun '(kw, key) '(kw', v) => kw' = kw /\ model_config !! key = Some v)
       hpo_arguments args).
Proof.
  split; [split|].
  - intros [args Hrun] k Hk. unfold config_keys in Hk.
    apply list_elem_of_fmap in Hk as ([kw key] & -> & Hin).
    apply mapM_Ok_Forall2 in Hrun.
    apply list_elem_of_lookup in Hin as [i Hi].
    destruct (Forall2_lookup_l _ _ _ _ _ Hrun Hi) as (y & _ & Hy).
    simpl in Hy. unfold dict_get in Hy. simpl.
    destruct (model_config !! key); [done|discriminate].
  - intros Hall. apply mapM_Ok_of_all. intros [kw key] Hin.
    destruct (Hall key) as [v Hv].
    { unfold config_keys. apply list_elem_of_fmap. by exists (kw, key). }
    exists (kw, v). simpl. unfold dict_get. by rewrite Hv.
  - intros args Hrun. apply mapM_Ok_Forall2 in Hrun.
    eapply Forall2_impl; [exact Hrun|]. intros [kw key] [kw' v] Hy.
    simpl in Hy. unfold dict_get in Hy.
    destruct (model_config !! key) eqn:Hk; simpl in Hy; [|discriminate].
    injection Hy as <- <-. done.
Qed.

(** [run_optimization] raises [KeyError] on the first key, in the order of
    the [hpo_pipeline] arguments, that [model_config] lacks. *)
Theorem run_optimization_first_missing (model_config : gmap string V) pre kw key post :
  hpo_arguments = pre ++ (kw, key) :: post ->
  (forall k, k ∈ pre.*2 -> is_Some (model_config !! k)) ->
  model_config !! key = None ->
  run_optimization model_config = Err (KeyError key).
Proof.
  intros Heq Hpre Hkey. unfold run_optimization. rewrite Heq.
  apply mapM_app_Err.
  - intros [kw' k] Hin. destruct (Hpre k) as [v Hv].
    { apply list_elem_of_fmap. by exists (kw', k). }
    exists (kw', v). simpl. unfold dict_get. by rewrite Hv.
  - simpl. unfold dict_get. by rewrite Hkey.
Qed.

(** [run_optimization] depends only on the 28 keys it reads: two
    configurations that agree on them give the same outcome. *)
Theorem run_optimization_reads_only_config_keys (mc1 mc2 : gmap string V) :
  (forall k, k ∈ config_keys -> mc1 !! k = mc2 !! k) ->
  run_optimization mc1 = run_optimization mc2.
Proof.
  intros Hk. unfold run_optimization. apply mapM_ext_in. intros [kw key] Hin.
  unfold dict_get. rewrite Hk; [done|].
  unfold config_keys. apply list_elem_of_fmap. by exists (kw, key).
Qed.

End OptimExtra.

Lemma pair_key_unique {K B} (l : list (K * B)) a b1 b2 :
  NoDup l.*1 -> (a, b1) ∈ l -> (a, b2) ∈ l -> b1 = b2.
Proof.
  induction l as [|[k b] l IH]; intros Hnd H1 H2; [set_solver|].
  simpl in Hnd. apply NoDup_cons in Hnd as [Hk Hnd].
  apply elem_of_cons in H1 as [H1|H1], H2 as [H2|H2].
  - congruence.
  - injection H1 as -> ->. exfalso. apply Hk. by apply (list_elem_of_fmap_2 fst) in H2.
  - injection H2 as -> ->. exfalso. apply Hk. by apply (list_elem_of_fmap_2 fst) in H1.
  - by apply IH.
Qed.

Lemma StronglySorted_fmap {A B} (R : relation B) (f : A -> B) (l : list A) :
  StronglySorted (fun a b => R (f a) (f b)) l -> StronglySorted R (f <$> l).
Proof.
  induction 1 as [|x l _ IH Hx]; simpl; constructor; [done|].
  apply Forall_fmap. exact Hx.
Qed.

Lemma StronglySorted_seq a n : StronglySorted le (seq a n).
Proof.
  revert a. induction n as [|n IH]; intros a; simpl; constructor; [done|].
  apply Forall_forall. intros y Hy. apply elem_of_seq in Hy. lia.
Qed.

Section KGEExtra.
Import KGE.

Lemma entity_id_lookup (entity_to_id : list (string * nat)) x i :
  NoDup entity_to_id.*1 -> (x, i) ∈ entity_to_id -> entity_id entity_to_id x = i.
Proof.
  intros Hnd Hin. unfold entity_id.
  destruct (list_find (fun p => p.1 = x) entity_to_id) as [[j [y k]]|] eqn:Hf.
  - apply list_find_Some in Hf as (Hj & Hy & _). simpl in Hy. subst y.
    eapply pair_key_unique; [exact Hnd| |exact Hin]. by eapply list_elem_of_lookup_2.
  - apply list_find_None in Hf. rewrite Forall_forall in Hf. by destruct (Hf _ Hin).
Qed.

(** [do_kge]: when pykeen's [entity_to_id] maps distinct entities onto
    [0 .. n-1], the entity with index [i] is the [i]-th label of the
    embedding index, i.e. it labels row [i] of the embedding matrix. *)
Theorem embedding_index_position (entity_to_id : list (string * nat)) :
  NoDup entity_to_id.*1 ->
  entity_to_id.*2 ≡ₚ seq 0 (length entity_to_id) ->
  forall x i, (x, i) ∈ entity_to_id -> embedding_index entity_to_id !! i = Some x.
Proof.
  intros Hnd Hids x i Hin.
  assert (Transitive (id_le entity_to_id)) by (intros a b c; unfold id_le; lia).
  assert (Total (id_le entity_to_id)) by (intros a b; unfold id_le; lia).
  pose proof (StronglySorted_merge_sort (id_le entity_to_id) (fst <$> entity_to_id)) as Hss.
  pose proof (merge_sort_Permutation (id_le entity_to_id) (fst <$> entity_to_id)) as Hp.
  fold (embedding_index entity_to_id) in Hss, Hp.
  set (idx := embedding_index entity_to_id) in *.
  assert (Hmap : entity_id entity_to_id <$> entity_to_id.*1 = entity_to_id.*2).
  { rewrite <- list_fmap_compose. apply list_fmap_ext. intros j [y k] Hj. simpl.
    apply entity_id_lookup; [done|]. by eapply list_elem_of_lookup_2. }
  assert (HL : entity_id entity_to_id <$> idx = seq 0 (length entity_to_id)).
  { apply (StronglySorted_unique le).
    - by apply (StronglySorted_fmap le (entity_id entity_to_id)).
    - apply StronglySorted_seq.
    - by rewrite Hp, Hmap. }
  assert (Hx : x ∈ idx) by (rewrite Hp; by apply (list_elem_of_fmap_2 fst) in Hin).
  apply list_elem_of_lookup in Hx as [j Hj].
  assert (Hlj : (entity_id entity_to_id <$> idx) !! j = Some i).
  { rewrite list_lookup_fmap, Hj. simpl. f_equal. by apply entity_id_lookup. }
  rewrite HL in Hlj. apply lookup_seq in Hlj as [-> _]. done.
Qed.

End KGEExtra.

Section PathsExtra.
Import Paths.

Lemma str_app_assoc (s1 s2 s3 : string) : s1 +:+ (s2 +:+ s3) = (s1 +:+ s2) +:+ s3.
Proof.
  induction s1 as [|a s1 IH]; [reflexivity|].
  change (String a (s1 +:+ (s2 +:+ s3)) = String a ((s1 +:+ s2) +:+ s3)). by rewrite IH.
Qed.

Lemma list_ascii_of_string_app (s t : string) :
  String.list_ascii_of_string (s +:+ t) =
  String.list_ascii_of_string s ++ String.list_ascii_of_string t.
Proof.
  induction s as [|a s IH]; [reflexivity|].
  change (a :: String.list_ascii_of_string (s +:+ t) =
          a :: (String.list_ascii_of_string s ++ String.list_ascii_of_string t)).
  by rewrite IH.
Qed.

Lemma ends_with_sep_app (s t : string) :
  t <> "" -> ends_with_sep (s +:+ t) = ends_with_sep t.
Proof.
  intros Ht. unfold ends_with_sep. rewrite list_ascii_of_string_app, last_app.
  destruct t as [|c t]; [done|]. simpl.
  destruct (last (c :: String.list_ascii_of_string t)) eqn:Hl; [done|].
  by apply last_None in Hl.
Qed.

Lemma app_nonempty (s t : string) : t <> "" -> s +:+ t <> "".
Proof. destruct s, t; done. Qed.

(** The prefix [os.path.join(out, b)] puts before a relative [b]. *)
Lemma path_join_one out b :
  starts_with_sep b = false ->
  path_join out [b] =
  (out +:+ (if bool_decide (out = "") || ends_with_sep out then "" else "/")) +:+ b.
Proof.
  intros Hb. unfold path_join. simpl. unfold join_step. rewrite Hb.
  rewrite <- str_app_assoc. by destruct (bool_decide (out = "") || ends_with_sep out).
Qed.

Lemma join_step_plain p b :
  p <> "" -> ends_with_sep p = false -> starts_with_sep b = false ->
  join_step p b = p +:+ ("/" +:+ b).
Proof.
  intros Hp He Hb. unfold join_step. rewrite Hb, He, bool_decide_false by done. done.
Qed.

(** [do_kge], [run_optimization] and [run_pipeline]: for any output folder,
    [run_pipeline] reads [best_pipeline/pipeline_config.json] inside the
    directory [run_optimization] saves to, and the three split files and
    the result paths are pairwise distinct. *)
Theorem output_paths_layout (out : string) :
  config_path out = optimization_dir out +:+ "/best_pipeline/pipeline_config.json" /\
  NoDup [train_path out; validation_path out; test_path out;
         optimization_dir out; config_path out; best_pipeline_dir out].
Proof.
  set (P := out +:+ (if bool_decide (out = "") || ends_with_sep out then "" else "/")).
  assert (Hopt : optimization_dir out = P +:+ "pykeen_results_optim")
    by (apply path_join_one; reflexivity).
  assert (Hcfg : config_path out = optimization_dir out +:+ "/best_pipeline/pipeline_config.json").
  { unfold config_path, path_join. change (foldl join_step out ["pykeen_results_optim"; "best_pipeline"; "pipeline_config.json"])
      with (join_step (join_step (path_join out ["pykeen_results_optim"]) "best_pipeline") "pipeline_config.json").
    fold (optimization_dir out). rewrite Hopt.
    rewrite (join_step_plain (P +:+ "pykeen_results_optim")).
    2: by apply app_nonempty. 2: by rewrite ends_with_sep_app. 2: done.
    rewrite join_step_plain.
    2: by apply app_nonempty. 2: by rewrite ends_with_sep_app. 2: done.
    rewrite <- !str_app_assoc. reflexivity. }
  split; [done|].
  rewrite Hcfg, Hopt, <- str_app_assoc.
  unfold train_path, validation_path, test_path, best_pipeline_dir.
  rewrite !path_join_one by reflexivity. fold P.
  change [P +:+ "train.edgelist"; P +:+ "validation.edgelist"; P +:+ "test.edgelist";
          P +:+ "pykeen_results_optim";
          P +:+ ("pykeen_results_optim" +:+ "/best_pipeline/pipeline_config.json");
          P +:+ "pykeen_results_final"]
    with (String.append P <$> ["train.edgelist"; "validation.edgelist"; "test.edgelist";
          "pykeen_results_optim";
          "pykeen_results_optim" +:+ "/best_pipeline/pipeline_config.json";
          "pykeen_results_final"]).
  apply NoDup_fmap_2; [apply _|].
  apply (bool_decide_unpack _). vm_compute. exact I.
Qed.

End PathsExtra.

Section KGELabels.
Import KGE.

Lemma kge_prepare_lookup (rs : list (nat * edge_row)) :
  exists label_mapping edges,
    kge_prepare (mk_edge_frame true rs) = Ok (label_mapping, edges) /\
    forall src, label_mapping !! src = first_labeled_cell rs src.
Proof.
  unfold kge_prepare, get_label, drop_label. simpl.
  set (key := fun rc : (nat * edge_row) * option string => let '(r, _) := rc in e_source r.2).
  set (labeled := filter _ _).
  set (unique_nodes := Splitter.dedup_by _ [] labeled).
  do 2 eexists. split; [reflexivity|].
  assert (Hkeys : ((fun '(r, cell) => (e_source (snd r), cell)) <$> unique_nodes).*1 =
                  key <$> unique_nodes).
  { rewrite <- list_fmap_compose. apply list_fmap_ext. by intros ? [[? ?] ?]. }
  intros src. rewrite dict_of_pairs_lookup.
  2:{ rewrite Hkeys. apply (dedup_by_nodup key). }
  rewrite find_fmap.
  rewrite (find_ext _ (fun x => bool_decide (key x = src))) by (by intros [[? ?] ?]).
  unfold unique_nodes. rewrite (dedup_by_find key) by apply not_elem_of_nil.
  unfold labeled. rewrite find_filter, zip_fmap_diag, find_fmap.
  unfold first_labeled_cell.
  rewrite (find_ext _ (fun r => bool_decide (e_source (snd r) = src /\ is_Some (e_label (snd r))))).
  2:{ intros [i r]. simpl. by rewrite bool_decide_and. }
  by destruct (find _ rs) as [[i r]|].
Qed.

Lemma first_labeled_cell_Some rs src :
  is_Some (first_labeled_cell rs src) <->
  exists e, e ∈ rs /\ e_source e.2 = src /\ is_Some (e_label e.2).
Proof.
  unfold first_labeled_cell. split.
  - intros [c Hc]. destruct (find _ rs) as [r|] eqn:Hf; [|discriminate].
    apply find_some in Hf as [Hin Hb]. apply bool_decide_eq_true in Hb as [Hs Hl].
    exists r. split; [by apply list_elem_of_In|done].
  - intros (r & Hin & Hs & Hl). destruct (find _ rs) as [r'|] eqn:Hf; [by eexists|].
    exfalso. eapply find_none in Hf; [|by apply list_elem_of_In].
    rewrite bool_decide_true in Hf; [discriminate|done].
Qed.

(** [do_kge] with [return_patients]: the label attachment succeeds exactly
    when every kept embedding row has a source row with a non-missing label
    in the edgelist, and each kept row then gets the label of the first such
    row. *)
Theorem do_kge_patient_labels (rs : list (nat * edge_row)) (file_names : list string)
    (embedding : list (string * list Q)) :
  match kge_prepare (mk_edge_frame true rs) with
  | Ok (label_mapping, _) =>
      ((exists out, attach_labels file_names label_mapping embedding = Ok out) <->
       (forall r, r ∈ embedding -> r.1 ∈ file_names ->
          exists e, e ∈ rs /\ e_source e.2 = r.1 /\ is_Some (e_label e.2))) /\
      (forall out, attach_labels file_names label_mapping embedding = Ok out ->
         Forall2 (fun r o => o.1 = r /\ first_labeled_cell rs r.1 = Some o.2)
           (filter (fun r => r.1 ∈ file_names) embedding) out)
  | Err _ => False
  end.
Proof.
  destruct (kge_prepare_lookup rs) as (lm & edges & Hprep & Hlook). rewrite Hprep.
  unfold attach_labels. split; [split|].
  - intros [out Hrun] r Hr Hf. apply first_labeled_cell_Some. rewrite <- Hlook.
    apply mapM_Ok_Forall2 in Hrun.
    assert (Hk : r ∈ filter (fun r => r.1 ∈ file_names) embedding)
      by (by apply list_elem_of_filter).
    apply list_elem_of_lookup in Hk as [j Hj].
    destruct (Forall2_lookup_l _ _ _ _ _ Hrun Hj) as (y & _ & Hy).
    destruct r as [index values]. simpl in *. unfold dict_get in Hy.
    destruct (lm !! index); [by eexists|discriminate].
  - intros Hall. apply mapM_Ok_of_all. intros [index values] Hk.
    apply list_elem_of_filter in Hk as [Hf Hr].
    destruct (proj2 (first_labeled_cell_Some rs index) (Hall _ Hr Hf)) as [c Hc].
    rewrite <- Hlook in Hc. simpl. unfold dict_get. rewrite Hc. simpl. by eexists.
  - intros out Hrun. apply mapM_Ok_Forall2 in Hrun.
    eapply Forall2_impl; [exact Hrun|].
    intros [index values] o Ho. simpl in Ho. unfold dict_get in Ho.
    destruct (lm !! index) eqn:Hl; simpl in Ho; [|discriminate].
    injection Ho as <-. simpl. split; [done|]. by rewrite <- Hlook.
Qed.

End KGELabels.

(** *** Concrete runs of the further properties *)

Section ExtraRuns.
Import Splitter.
Local Open Scope Q_scope.

Lemma weighted_splitter_never_duplicates_witness :
  exists tr va te lost,
    [[mk_triple "g" "q" "h"; mk_triple "a" "r" "b"]; []; [mk_triple "e" "q" "f"]] =
      [tr; va; te] /\
    (drop_duplicates
       [(0%nat, mk_triple "a" "r" "b"); (0%nat, mk_triple "c" "r" "d");
        (1%nat, mk_triple "e" "q" "f"); (2%nat, mk_triple "g" "q" "h")]).*2
      ≡ₚ tr ++ va ++ te ++ lost /\
    NoDup (tr ++ va ++ te).
Proof.
  apply (weighted_splitter_never_duplicates
           (fun s i => (((s * 5 + 3) mod 17) mod S i, (s * 5 + 3) mod 17)%nat) 1%nat
           [(0%nat, mk_triple "a" "r" "b"); (0%nat, mk_triple "c" "r" "d");
            (1%nat, mk_triple "e" "q" "f"); (2%nat, mk_triple "g" "q" "h")]
           (1#2) (1#4)
           [[mk_triple "g" "q" "h"; mk_triple "a" "r" "b"]; []; [mk_triple "e" "q" "f"]]
           9%nat).
  vm_compute. reflexivity.
Defined.

Lemma weighted_splitter_grouped_witness :
  Forall (fun split => Sorted String.le (relation <$> split))
    [[mk_triple "g" "q" "h"; mk_triple "a" "r" "b"]; []; [mk_triple "e" "q" "f"]].
Proof.
  apply (weighted_splitter_grouped
           (fun s i => (((s * 5 + 3) mod 17) mod S i, (s * 5 + 3) mod 17)%nat) 1%nat
           [(0%nat, mk_triple "a" "r" "b"); (0%nat, mk_triple "c" "r" "d");
            (1%nat, mk_triple "e" "q" "f"); (2%nat, mk_triple "g" "q" "h")]
           (1#2) (1#4) _ 9%nat).
  vm_compute. reflexivity.
Defined.



End ExtraRuns.

Lemma run_optimization_first_missing_witness :
  Optim.run_optimization
    (list_to_map [("model", 0%nat); ("model_kwargs", 0%nat); ("model_kwargs_ranges", 0%nat)]
      : gmap string nat) = Err (KeyError "loss_function").
Proof.
  apply (run_optimization_first_missing _ (take 3 Optim.hpo_arguments) "loss" "loss_function"
           (drop 4 Optim.hpo_arguments)); [reflexivity| |reflexivity].
  apply Forall_forall. apply (bool_decide_unpack _). vm_compute. exact I.
Defined.

Lemma run_optimization_reads_only_config_keys_witness :
  Optim.run_optimization
    (<["comment" := 7%nat]> (list_to_map ((fun k => (k, 1%nat)) <$> Optim.config_keys))
      : gmap string nat) =
  Optim.run_optimization
    (list_to_map ((fun k => (k, 1%nat)) <$> Optim.config_keys) : gmap string nat).
Proof.
  apply run_optimization_reads_only_config_keys.
  apply Forall_forall. apply (bool_decide_unpack _). vm_compute. exact I.
Defined.

Lemma embedding_index_position_witness :
  KGE.embedding_index [("b", 1%nat); ("a", 0%nat); ("c", 2%nat)] !! 0%nat = Some "a".
Proof.
  apply embedding_index_position;
    [apply (bool_decide_unpack _); vm_compute; exact I..].
Defined.
